(** * Verification of the type-assertion rewrite scripts

    The repository holds two one-off migration scripts,
    [tmp/fix-all-patterns.py] and [tmp/fix-remaining.py].  Each reads a
    fixed list of test files, rewrites [expectTypeOf(...)] assertions to
    the [Ts.Assert] syntax with [re.sub], writes a file back when its text
    changed, and prints a report.

    This development embeds the scripts shallowly:
    - [Re]: the fragment of Python's backtracking regular expressions the
      scripts use (literal text and lazily repeated character classes in
      capturing groups), with [re.sub];
    - [Rules]: the patterns, templates and the two rewrite pipelines;
    - [Py]: a small state-and-exception monad over a file system and a
      log of effects, with [open]/[read]/[write]/[print];
    - [FixAllPatterns], [FixRemaining]: [fix_file] and the main loop of
      each script.

    Text is modelled as [string].  Every character the patterns test for
    is ASCII, so matching on the encoded text and on the decoded text
    select the same spans. *)

From Stdlib Require Import String Ascii List Arith Lia Permutation.
From stdpp Require Import base option gmap strings list pretty.
Import ListNotations.

Local Open Scope string_scope.
Local Open Scope list_scope.

(** ** Regular expressions, as far as the scripts use them *)

Module Re.

(** A character class: [[^c]], [.] without flags, [.] under [re.DOTALL]. *)
Inductive cls :=
| NotChar (c : ascii)
| Dot
| DotAll.

Definition newline : ascii := ascii_of_nat 10.

Definition accepts (k : cls) (c : ascii) : bool :=
  match k with
  | NotChar d => negb (Ascii.eqb c d)
  | Dot => negb (Ascii.eqb c newline)
  | DotAll => true
  end.

(** A pattern is a sequence of items: escaped literal text, or a capturing
    group [(k+?)] around a lazily repeated class.  Groups are numbered
    from 1 in the order they open. *)
Inductive item :=
| Lit (s : string)
| LazyPlus (k : cls).

Definition regex := list item.

(** What a successful match exposes: the captured groups and the length of
    the matched span ([m.end() - m.start()]). *)
Record Match := { groups : list string; span : nat }.

Definition group (m : Match) (i : nat) : string :=
  nth (pred i) (groups m) "".

(** [strip l s] removes the literal [l] from the front of [s]. *)
Fixpoint strip (l s : string) : option string :=
  match l with
  | "" => Some s
  | String a l' =>
      match s with
      | "" => None
      | String b s' => if Ascii.eqb a b then strip l' s' else None
      end
  end.

(** A lazy group [(k+?)] followed by the rest of the pattern: take one
    character of the class, try the rest, and only when that fails take
    one more.  [taken] is what the group holds so far. *)
Fixpoint lazy_plus (k : cls) (rest : string → option Match)
    (taken s : string) : option Match :=
  match s with
  | "" => None
  | String c s' =>
      if accepts k c then
        let taken := taken +:+ String c "" in
        match rest s' with
        | Some m => Some {| groups := taken :: groups m;
                            span := String.length taken + span m |}
        | None => lazy_plus k rest taken s'
        end
      else None
  end.

(** Backtracking match of [r] at the front of [s]: the first success in
    the order in which the matcher tries the alternatives. *)
Fixpoint match_here (r : regex) (s : string) : option Match :=
  match r with
  | [] => Some {| groups := []; span := 0 |}
  | Lit l :: r' =>
      match strip l s with
      | Some s' =>
          match match_here r' s' with
          | Some m => Some {| groups := groups m; span := String.length l + span m |}
          | None => None
          end
      | None => None
      end
  | LazyPlus k :: r' => lazy_plus k (match_here r') "" s
  end.

(** What the matcher is to find: [matches r t gs] says that the text [t],
    as a whole, is an instance of the pattern [r] with the groups [gs]. *)
Fixpoint all_accepted (k : cls) (g : string) : bool :=
  match g with
  | "" => true
  | String c g' => accepts k c && all_accepted k g'
  end.

Inductive matches : regex → string → list string → Prop :=
| matches_end : matches [] "" []
| matches_lit l r t gs :
    matches r t gs → matches (Lit l :: r) (l +:+ t) gs
| matches_group k r g t gs :
    g ≠ "" → all_accepted k g = true → matches r t gs →
    matches (LazyPlus k :: r) (g +:+ t) (g :: gs).

(** [needle in s]: the text [needle] occurs somewhere in [s]. *)
Fixpoint occurs (needle s : string) : bool :=
  match strip needle s with
  | Some _ => true
  | None =>
      match s with
      | "" => false
      | String _ s' => occurs needle s'
      end
  end.

(** [re.search]: the first position at which the pattern matches. *)
Fixpoint search (r : regex) (s : string) : option Match :=
  match match_here r s with
  | Some m => Some m
  | None =>
      match s with
      | "" => None
      | String _ s' => search r s'
      end
  end.

(** Replacement: a template with group references, or a callable. *)
Inductive piece :=
| Text (s : string)
| Ref (i : nat).

Inductive repl :=
| Template (t : list piece)
| Callable (f : Match → string).

Fixpoint expand (t : list piece) (m : Match) : string :=
  match t with
  | [] => ""
  | Text s :: t' => s +:+ expand t' m
  | Ref i :: t' => group m i +:+ expand t' m
  end.

Definition replacement (rp : repl) (m : Match) : string :=
  match rp with
  | Template t => expand t m
  | Callable f => f m
  end.

(** [re.sub]: scan left to right; at a match emit the replacement and
    resume after the matched span, elsewhere copy the character.  [skip]
    counts the characters of the current match still to pass over.  The
    patterns of the scripts start with a literal, so they never match the
    empty string and the scan has nothing to do at the end of the text. *)
Fixpoint sub_from (r : regex) (rp : repl) (skip : nat) (s : string) : string :=
  match s with
  | "" => ""
  | String c s' =>
      match skip with
      | S k => sub_from r rp k s'
      | 0 =>
          match match_here r s with
          | Some m => replacement rp m +:+ sub_from r rp (pred (span m)) s'
          | None => String c (sub_from r rp 0 s')
          end
      end
  end.

Definition sub (r : regex) (rp : repl) (s : string) : string :=
  sub_from r rp 0 s.

End Re.

(** ** The rewrite rules of the two scripts *)

Module Rules.
Import Re.

Definition rule : Type := regex * repl.

Definition apply (ru : rule) (content : string) : string :=
  sub ru.1 ru.2 content.

(** [expectTypeOf\(([^)]+?)\)\.toEqualTypeOf\(([^)]+?)\)] *)
Definition value_value : rule :=
  ([Lit "expectTypeOf("; LazyPlus (NotChar ")"); Lit ").toEqualTypeOf(";
    LazyPlus (NotChar ")"); Lit ")"],
   Template [Text "Ts.Assert.exact.ofAs<typeof "; Ref 2; Text ">().on("; Ref 1; Text ")"]).

(** [expectTypeOf\(([^)]+?)\)\.toMatchTypeOf<(.+?)>\(\)] *)
Definition value_sub : rule :=
  ([Lit "expectTypeOf("; LazyPlus (NotChar ")"); Lit ").toMatchTypeOf<";
    LazyPlus Dot; Lit ">()"],
   Template [Text "Ts.Assert.sub.ofAs<"; Ref 2; Text ">().on("; Ref 1; Text ")"]).

(** [expectTypeOf<(.+?)>\(\)\.toMatchTypeOf<(.+?)>\(\)] *)
Definition type_sub : rule :=
  ([Lit "expectTypeOf<"; LazyPlus Dot; Lit ">().toMatchTypeOf<";
    LazyPlus Dot; Lit ">()"],
   Template [Text "Ts.Assert.sub.ofAs<"; Ref 2; Text ">().onAs<"; Ref 1; Text ">()"]).

(** [expectTypeOf<(.+?)>\(\)\.not\.toMatchTypeOf<(.+?)>\(\)] *)
Definition type_not_sub : rule :=
  ([Lit "expectTypeOf<"; LazyPlus Dot; Lit ">().not.toMatchTypeOf<";
    LazyPlus Dot; Lit ">()"],
   Template [Text "Ts.Assert.not.sub.ofAs<"; Ref 2; Text ">().onAs<"; Ref 1; Text ">()"]).

(** [expectTypeOf\(([^)]+?)\)\.toEqualTypeOf<(.+?)>\(\)] *)
Definition value_type : rule :=
  ([Lit "expectTypeOf("; LazyPlus (NotChar ")"); Lit ").toEqualTypeOf<";
    LazyPlus Dot; Lit ">()"],
   Template [Text "Ts.Assert.exact.ofAs<"; Ref 2; Text ">().on("; Ref 1; Text ")"]).

(** [expectTypeOf<(.+?)>\(\)\.toEqualTypeOf<(.+?)>\(\)] *)
Definition type_type : rule :=
  ([Lit "expectTypeOf<"; LazyPlus Dot; Lit ">().toEqualTypeOf<";
    LazyPlus Dot; Lit ">()"],
   Template [Text "Ts.Assert.exact.ofAs<"; Ref 2; Text ">().onAs<"; Ref 1; Text ">()"]).

(** The callback of [fix-remaining.py]. *)
Definition replace_type_only (m : Match) : string :=
  let actual := group m 1 in
  let expected := group m 2 in
  "Ts.Assert.exact.ofAs<" +:+ expected +:+ ">().onAs<" +:+ actual +:+ ">()".

(** The same pattern as [type_type], compiled with [flags=re.DOTALL]. *)
Definition type_type_dotall : rule :=
  ([Lit "expectTypeOf<"; LazyPlus DotAll; Lit ">().toEqualTypeOf<";
    LazyPlus DotAll; Lit ">()"],
   Callable replace_type_only).

(** The six substitutions of [fix-all-patterns.py], in the order written. *)
Definition rewrite_all (content : string) : string :=
  let content := apply value_value content in
  let content := apply value_sub content in
  let content := apply type_sub content in
  let content := apply type_not_sub content in
  let content := apply value_type content in
  let content := apply type_type content in
  content.

(** The two substitutions of [fix-remaining.py]. *)
Definition rewrite_remaining (content : string) : string :=
  let content := apply value_type content in
  let content := apply type_type_dotall content in
  content.

Definition rules_all : list rule :=
  [value_value; value_sub; type_sub; type_not_sub; value_type; type_type].

Definition rules_remaining : list rule :=
  [value_type; type_type_dotall].

Definition run_rules (rs : list rule) (content : string) : string :=
  fold_left (λ c ru, apply ru c) rs content.

End Rules.

(** ** The interpreter's effects: files, console, exceptions *)

Module Py.

(** A file on disk: its text, and whether it may be opened for writing. *)
Record file := { text : string; writable : bool }.

(** The exceptions [open] raises here; both are subclasses of [Exception]. *)
Inductive exn :=
| FileNotFoundError (path : string)
| PermissionError (path : string).

(** [str(e)], for paths that [repr] prints between single quotes as they
    are (no quote, backslash or control character), as all listed paths. *)
Definition str (e : exn) : string :=
  match e with
  | FileNotFoundError p => "[Errno 2] No such file or directory: '" +:+ p +:+ "'"
  | PermissionError p => "[Errno 13] Permission denied: '" +:+ p +:+ "'"
  end.

(** What a run does to the outside, in the order it happens. *)
Inductive effect :=
| Write (path content : string)
| Print (line : string).

Record world := { fs : gmap string file; log : list effect }.

(** A computation runs in a world and returns a value or raises. *)
Definition M (A : Type) : Type := world → (exn + A) * world.

Definition ret {A} (a : A) : M A := λ w, (inr a, w).

Definition bind {A B} (c : M A) (k : A → M B) : M B :=
  λ w, match c w with
       | (inr a, w') => k a w'
       | (inl e, w') => (inl e, w')
       end.

Definition raise {A} (e : exn) : M A := λ w, (inl e, w).

(** [try: c except Exception as e: h e] *)
Definition try_except {A} (c : M A) (h : exn → M A) : M A :=
  λ w, match c w with
       | (inr a, w') => (inr a, w')
       | (inl e, w') => h e w'
       end.

Declare Scope py_scope.
Delimit Scope py_scope with py.
Notation "x <- c ;; k" := (bind c (λ x, k))
  (at level 100, c at next level, right associativity) : py_scope.
Notation "c ;; k" := (bind c (λ _, k))
  (at level 100, right associativity) : py_scope.
Local Open Scope py_scope.

(** [with open(path, 'r') as f: f.read()] *)
Definition read_text (path : string) : M string :=
  λ w, match fs w !! path with
       | Some f => ret (text f) w
       | None => raise (FileNotFoundError path) w
       end.

(** [with open(path, 'w') as f: f.write(content)]: the file is replaced
    as a whole; opening a missing file for writing creates it; a file that
    may not be written is left as it is. *)
Definition store (path content : string) : M unit :=
  λ w, (inr (),
        {| fs := <[path := {| text := content; writable := true |}]> (fs w);
           log := log w ++ [Write path content] |}).

Definition write_text (path content : string) : M unit :=
  λ w, match fs w !! path with
       | Some f =>
           if writable f then store path content w
           else raise (PermissionError path) w
       | None => store path content w
       end.

Definition print (line : string) : M unit :=
  λ w, (inr (), {| fs := fs w; log := log w ++ [Print line] |}).

(** The lines a log shows on the console, and the writes it records. *)
Definition printed (l : list effect) : list string :=
  omap (λ e, match e with Print s => Some s | Write _ _ => None end) l.

Definition written (l : list effect) : list (string * string) :=
  omap (λ e, match e with Write p c => Some (p, c) | Print _ => None end) l.

End Py.

(** ** The scripts *)

Definition check_mark : string := "✓".

Definition files : list string :=
  [ "src/utils/ts/print.test.ts";
    "src/utils/mask/mask.test-d.ts";
    "src/domains/str/match.test-d.ts";
    "src/utils/err/try.test.ts";
    "src/utils/sch/$.test-d.ts";
    "src/utils/ts/relation.test.ts";
    "src/utils/config-manager/ConfigManager.test.ts";
    "src/utils/fs/$.test.ts";
    "src/domains/group/$.test.ts";
    "src/domains/idx/$.test.ts";
    "src/domains/obj/filter.test-d.ts" ].

Definition fixed_line (filepath : string) : string :=
  check_mark +:+ " Fixed " +:+ filepath.

Definition no_changes_line (filepath : string) : string :=
  "  No changes in " +:+ filepath.

Definition error_line (filepath : string) (e : Py.exn) : string :=
  "Error processing " +:+ filepath +:+ ": " +:+ Py.str e.

Definition summary_line (changed : nat) : string :=
  String Re.newline ("Fixed " +:+ pretty changed +:+ " files").

Module FixAllPatterns.
Import Py.
Local Open Scope py_scope.

Definition fix_file (filepath : string) : M bool :=
  content <- read_text filepath ;;
  let original := content in
  let content := Rules.rewrite_all content in
  if decide (content ≠ original) then
    write_text filepath content ;;
    print (fixed_line filepath) ;;
    ret true
  else
    print (no_changes_line filepath) ;;
    ret false.

(** The [for] loop of the main block, with its counter. *)
Fixpoint loop (fl : list string) (changed : nat) : M nat :=
  match fl with
  | [] => ret changed
  | filepath :: fl' =>
      changed <- try_except
                   (b <- fix_file filepath ;;
                    ret (if b : bool then changed + 1 else changed))
                   (λ e, print (error_line filepath e) ;; ret changed) ;;
      loop fl' changed
  end.

Definition run (fl : list string) : M unit :=
  changed <- loop fl 0 ;;
  print (summary_line changed).

Definition main : M unit := run files.

End FixAllPatterns.

Module FixRemaining.
Import Py.
Local Open Scope py_scope.

Definition fix_file (filepath : string) : M bool :=
  content <- read_text filepath ;;
  let original := content in
  let content := Rules.rewrite_remaining content in
  if decide (content ≠ original) then
    write_text filepath content ;;
    print (fixed_line filepath) ;;
    ret true
  else
    print (no_changes_line filepath) ;;
    ret false.

(** The [for] loop of the main block: no handler around [fix_file]. *)
Fixpoint loop (fl : list string) (changed : nat) : M nat :=
  match fl with
  | [] => ret changed
  | filepath :: fl' =>
      b <- fix_file filepath ;;
      let changed := if b : bool then changed + 1 else changed in
      loop fl' changed
  end.

Definition run (fl : list string) : M unit :=
  changed <- loop fl 0 ;;
  print (summary_line changed).

Definition main : M unit := run files.

End FixRemaining.

(** ** Notions the statements use *)

Import Re Rules Py.

(** The two scripts, to state a property of both at once. *)
Inductive script := AllPatterns | Remaining.

Definition rewrite_of (v : script) : string → string :=
  match v with
  | AllPatterns => rewrite_all
  | Remaining => rewrite_remaining
  end.

Definition rules_of (v : script) : list rule :=
  match v with
  | AllPatterns => rules_all
  | Remaining => rules_remaining
  end.

Definition fix_file_of (v : script) : string → M bool :=
  match v with
  | AllPatterns => FixAllPatterns.fix_file
  | Remaining => FixRemaining.fix_file
  end.

Definition main_of (v : script) : M unit :=
  match v with
  | AllPatterns => FixAllPatterns.main
  | Remaining => FixRemaining.main
  end.

(** No rule of the script matches anywhere in the text. *)
Definition no_rule_matches (v : script) (content : string) : Prop :=
  ∀ ru, ru ∈ rules_of v → search ru.1 content = None.



(** How a call of [fix_file] ended: an exception, or the value returned. *)
Definition returned (r : exn + bool) : bool :=
  match r with inr _ => true | inl _ => false end.

Definition returned_true (r : exn + bool) : bool :=
  match r with inr true => true | _ => false end.

Definition count_true (rs : list (exn + bool)) : nat :=
  length (List.filter returned_true rs).

(** The calls of [fix_file] on the paths of a list, one after the other,
    each in the world the call before left behind. *)
Fixpoint outcomes (v : script) (fl : list string) (w : world) : list (exn + bool) :=
  match fl with
  | [] => []
  | filepath :: fl' =>
      let (r, w') := fix_file_of v filepath w in
      r :: outcomes v fl' w'
  end.

(** The console line for a file whose call ended with [r]. *)
Definition report_line (filepath : string) (r : exn + bool) : string :=
  match r with
  | inr true => fixed_line filepath
  | inr false => no_changes_line filepath
  | inl e => error_line filepath e
  end.

(** The console line for a file if there were only two kinds of line. *)
Definition two_way_line (filepath : string) (r : exn + bool) : string :=
  if returned_true r then fixed_line filepath else no_changes_line filepath.

(** The report of a whole run, read as: the run ends normally, having
    printed for every listed file its success or "no changes" line, then
    the summary with the number of calls that returned true. *)
Definition reports_two_way (v : script) (w : world) : Prop :=
  ∃ w' new,
    main_of v w = (inr (), w') ∧ log w' = log w ++ new ∧
    printed new =
      zip_with two_way_line files (outcomes v files w)
      ++ [summary_line (count_true (outcomes v files w))].

(** A disk that holds only the second listed file, with one assertion. *)
Definition disk_second_only : world :=
  {| fs := {[ "src/utils/mask/mask.test-d.ts" :=
                {| text := "expectTypeOf<Foo>().toEqualTypeOf<Bar>()";
                   writable := true |} ]};
     log := [] |}.

(** A disk that holds every listed file, half of them with an assertion
    to rewrite. *)
Definition disk_complete : world :=
  {| fs := list_to_map
             (imap (λ i filepath,
                      (filepath,
                       {| text := if Nat.even i
                                  then "expectTypeOf(a).toEqualTypeOf<A>()"
                                  else "expect(a).toBe(1)";
                          writable := true |}))
                   files);
     log := [] |}.

(** The run of a script on a list of paths. *)
Definition run_of (v : script) : list string → M unit :=
  match v with
  | AllPatterns => FixAllPatterns.run
  | Remaining => FixRemaining.run
  end.

(** The world after the calls of [fix_file] on the paths of a list, one
    after the other. *)
Definition disk_after (v : script) (fl : list string) (w : world) : world :=
  fold_left (λ w filepath, (fix_file_of v filepath w).2) fl w.

(** What a file holds once the pipeline went over it: the rewritten text
    if the file may be written, and what it held before if not. *)
Definition rewritten_file (v : script) (f : file) : file :=
  if writable f then {| text := rewrite_of v (text f); writable := true |}
  else f.

(** Arguments of an assertion.  A free text is on one line and has no
    parenthesis; a plain text has no angle bracket either. *)
Definition delimiter (c : ascii) : bool :=
  Ascii.eqb c "(" || Ascii.eqb c ")" || Ascii.eqb c newline.

Definition special (c : ascii) : bool :=
  delimiter c || Ascii.eqb c "<" || Ascii.eqb c ">".

Fixpoint free (g : string) : bool :=
  match g with
  | "" => true
  | String c g' => negb (delimiter c) && free g'
  end.

Fixpoint plain (g : string) : bool :=
  match g with
  | "" => true
  | String c g' => negb (special c) && plain g'
  end.

(** The classes of the scripts take every character of a free text. *)
Definition takes_free (k : cls) : bool :=
  match k with
  | NotChar c => delimiter c
  | Dot | DotAll => true
  end.

(** A literal that cannot begin inside a free text, nor on its last
    character when the literal itself follows: it opens with a delimiter,
    or has one in second place after another character. *)
Definition guards (l : string) : bool :=
  match l with
  | "" => false
  | String c0 "" => delimiter c0
  | String c0 (String c1 _) =>
      delimiter c0 || (delimiter c1 && negb (Ascii.eqb c0 c1))
  end.

Fixpoint mem (c : ascii) (s : string) : bool :=
  match s with
  | "" => false
  | String d s' => Ascii.eqb c d || mem c s'
  end.

Fixpoint has_delimiter (s : string) : bool :=
  match s with
  | "" => false
  | String c s' => delimiter c || has_delimiter s'
  end.




(** ** The regular-expression fragment *)

Section ReFacts.

Lemma append_cons c s t : String c s +:+ t = String c (s +:+ t).
Proof. reflexivity. Qed.

Lemma append_empty t : "" +:+ t = t.
Proof. reflexivity. Qed.

Lemma append_assoc s t u : (s +:+ t) +:+ u = s +:+ (t +:+ u).
Proof.
  induction s as [|c s IH]; [done|].
  by rewrite !append_cons, IH.
Qed.

Lemma strip_Some l : ∀ s s', strip l s = Some s' → s = l +:+ s'.
Proof.
  induction l as [|a l IH]; intros s s' H; simpl in *.
  - by inversion H.
  - destruct s as [|b s]; [done|].
    destruct (Ascii.eqb a b) eqn:E; [|done].
    apply Ascii.eqb_eq in E as ->. rewrite append_cons. f_equal. by apply IH.
Qed.

Lemma strip_app l : ∀ s, strip l (l +:+ s) = Some s.
Proof.
  induction l as [|a l IH]; intros s; [done|].
  rewrite append_cons. simpl. by rewrite Ascii.eqb_refl.
Qed.

Lemma strip_app_l l1 l2 s :
  is_Some (strip (l1 +:+ l2) s) → is_Some (strip l1 s).
Proof.
  intros [s' H]. apply strip_Some in H as ->.
  rewrite append_assoc, strip_app. by eexists.
Qed.

(** [occurs] is the substring relation. *)
Lemma occurs_true needle s :
  occurs needle s = true ↔ ∃ pre post, s = pre +:+ needle +:+ post.
Proof.
  split.
  - induction s as [|c s IH]; simpl.
    + destruct (strip needle "") eqn:E; [|done].
      intros _. exists "", s. by apply strip_Some in E.
    + destruct (strip needle (String c s)) eqn:E.
      * intros _. exists "", s0. by apply strip_Some in E.
      * intros H. destruct (IH H) as (pre & post & ->).
        by exists (String c pre), post.
  - intros (pre & post & ->).
    induction pre as [|c pre IH].
    + rewrite append_empty.
      destruct (needle +:+ post) eqn:E; simpl; by rewrite <- E, strip_app.
    + rewrite append_cons. simpl. rewrite IH. by destruct (strip needle _).
Qed.

Lemma occurs_false_cons needle c s :
  occurs needle (String c s) = false →
  strip needle (String c s) = None ∧ occurs needle s = false.
Proof. simpl. by destruct (strip needle (String c s)). Qed.

Lemma match_here_Lit l r s m :
  match_here (Lit l :: r) s = Some m → is_Some (strip l s).
Proof. simpl. destruct (strip l s); [by eexists | done]. Qed.

Lemma length_append s t :
  String.length (s +:+ t) = String.length s + String.length t.
Proof.
  induction s as [|c s IH]; [done|].
  rewrite append_cons. cbn. by rewrite IH.
Qed.

(** The lazy group takes the shortest text after which the rest of the
    pattern matches. *)
Lemma lazy_plus_sound k rest : ∀ s taken m,
  lazy_plus k rest taken s = Some m →
  ∃ g s' m',
    s = g +:+ s' ∧ g ≠ "" ∧ all_accepted k g = true ∧
    rest s' = Some m' ∧
    groups m = (taken +:+ g) :: groups m' ∧
    span m = String.length (taken +:+ g) + span m' ∧
    (∀ g1 g2, g = g1 +:+ g2 → g1 ≠ "" → g2 ≠ "" → rest (g2 +:+ s') = None).
Proof.
  induction s as [|c s IH]; intros taken m; cbn [lazy_plus]; [done|].
  destruct (accepts k c) eqn:Hc; [|done].
  destruct (rest s) as [m0|] eqn:Hrest.
  - intros [= <-]. exists (String c ""), s, m0. cbn [all_accepted groups span].
    rewrite Hc. repeat split; try done.
    intros [|? [|? ?]] [|? ?]; rewrite ?append_cons, ?append_empty; done.
  - intros (g & s' & m' & -> & Hg & Hall & Hr & Hgs & Hsp & Hmin)%IH.
    exists (String c g), s', m'. cbn [all_accepted].
    rewrite Hc, Hall, Hgs, Hsp, !append_assoc, !append_cons, !append_empty.
    repeat split; try done.
    intros [|c1 g1] g2; [done|]. rewrite append_cons. intros [= <- ->] _ Hg2.
    destruct g1 as [|c1 g1]; [by rewrite append_empty in Hrest |].
    by apply (Hmin (String c1 g1)).
Qed.

Lemma lazy_plus_complete k rest g : ∀ taken s,
  g ≠ "" → all_accepted k g = true → rest s ≠ None →
  lazy_plus k rest taken (g +:+ s) ≠ None.
Proof.
  induction g as [|c g IH]; intros taken s Hg Hall Hrest; [done|].
  cbn [all_accepted] in Hall. apply andb_prop in Hall as [Hc Hall].
  rewrite append_cons. cbn [lazy_plus]. rewrite Hc.
  destruct (rest (g +:+ s)) eqn:E; [done|].
  apply IH; [|done..]. intros ->. by rewrite append_empty in E.
Qed.

(** The matcher finds instances of the pattern only, and finds one at the
    front of a text whenever there is one. *)
Lemma match_here_sound r : ∀ s m,
  match_here r s = Some m →
  ∃ t rest,
    s = t +:+ rest ∧ matches r t (groups m) ∧ span m = String.length t.
Proof.
  induction r as [|[l|k] r IH]; intros s m; cbn [match_here].
  - intros [= <-]. exists "", s. repeat split. constructor.
  - destruct (strip l s) as [s'|] eqn:Hl; [|done].
    apply strip_Some in Hl as ->.
    destruct (match_here r s') as [m'|] eqn:Hm; [|done].
    intros [= <-]. destruct (IH _ _ Hm) as (t & rest & -> & Ht & Hsp).
    exists (l +:+ t), rest. cbn [groups span].
    rewrite append_assoc, length_append, Hsp. repeat split; try done.
    by constructor.
  - intros (g & s' & m' & -> & Hg & Hall & Hm & Hgs & Hsp & _)%lazy_plus_sound.
    destruct (IH _ _ Hm) as (t & rest & -> & Ht & Hsp').
    exists (g +:+ t), rest.
    rewrite append_assoc, Hgs, Hsp, Hsp', !append_empty, length_append.
    repeat split; try done. by constructor.
Qed.

Lemma match_here_complete r t gs :
  matches r t gs → ∀ rest, match_here r (t +:+ rest) ≠ None.
Proof.
  induction 1 as [|l r t gs _ IH|k r g t gs Hg Hall _ IH]; intros rest.
  - done.
  - cbn [match_here]. rewrite append_assoc, strip_app.
    specialize (IH rest). by destruct (match_here r (t +:+ rest)).
  - cbn [match_here]. rewrite append_assoc. by apply lazy_plus_complete.
Qed.

(** [re.search] succeeds exactly on the texts that contain an instance of
    the pattern. *)
Lemma search_matches r s :
  search r s ≠ None ↔
  ∃ pre t post gs, s = pre +:+ t +:+ post ∧ matches r t gs.
Proof.
  split.
  - induction s as [|c s IH]; cbn [search];
      destruct (match_here r _) as [m|] eqn:E; try done.
    + intros _. apply match_here_sound in E as (t & rest & -> & Ht & _).
      by exists "", t, rest, (groups m).
    + intros _. apply match_here_sound in E as (t & rest & Hs & Ht & _).
      exists "", t, rest, (groups m). by rewrite append_empty.
    + intros (pre & t & post & gs & -> & Ht)%IH.
      by exists (String c pre), t, post, gs.
  - intros (pre & t & post & gs & -> & Ht).
    pose proof (match_here_complete _ _ _ Ht post) as Hm.
    induction pre as [|c pre IH].
    + rewrite append_empty.
      destruct (t +:+ post); cbn [search]; by destruct (match_here r _).
    + rewrite append_cons. cbn [search].
      by destruct (match_here r (String c _)).
Qed.

(** Where a pattern matches nowhere, [re.sub] returns its input. *)
Lemma search_None_cons r c s :
  search r (String c s) = None →
  match_here r (String c s) = None ∧ search r s = None.
Proof. simpl. by destruct (match_here r (String c s)). Qed.

Lemma sub_no_match r rp s : search r s = None → sub r rp s = s.
Proof.
  unfold sub. induction s as [|c s IH]; [done|].
  intros [Hm Hs]%search_None_cons.
  cbn [sub_from]. rewrite Hm. f_equal. by apply IH.
Qed.

(** The equations of [re.sub]: a character at which the pattern does not
    match is copied; a match is replaced and the scan resumes after it. *)
Lemma sub_copy r rp c s :
  match_here r (String c s) = None →
  sub r rp (String c s) = String c (sub r rp s).
Proof. unfold sub. cbn [sub_from]. by intros ->. Qed.

Lemma sub_from_skip r rp t : ∀ rest,
  sub_from r rp (String.length t) (t +:+ rest) = sub r rp rest.
Proof.
  induction t as [|c t IH]; intros rest; [done|].
  rewrite append_cons. cbn [String.length sub_from]. apply IH.
Qed.

Lemma sub_replace r rp s m t rest :
  match_here r s = Some m → s = t +:+ rest → span m = String.length t →
  t ≠ "" →
  sub r rp s = replacement rp m +:+ sub r rp rest.
Proof.
  intros Hm -> Hsp Ht. destruct t as [|c t]; [done|].
  unfold sub at 1. rewrite append_cons in *. cbn [sub_from].
  rewrite Hm, Hsp. cbn [String.length Init.Nat.pred]. by rewrite sub_from_skip.
Qed.

(** A pattern that opens with literal text matches only where that text
    occurs. *)
Lemma search_None_of_occurs needle l r s :
  occurs needle s = false → search (Lit (needle +:+ l) :: r) s = None.
Proof.
  induction s as [|c s IH].
  - intros H. simpl in H. cbn [search].
    destruct (match_here _ "") eqn:E; [|done].
    apply match_here_Lit, strip_app_l in E as [? E]. by rewrite E in H.
  - intros [Hn Ho]%occurs_false_cons. cbn [search].
    destruct (match_here _ (String c s)) eqn:E.
    + apply match_here_Lit, strip_app_l in E as [? E]. by rewrite E in Hn.
    + by apply IH.
Qed.

End ReFacts.

(** ** The rewrite pipelines *)

Section Pipelines.

Lemma rewrite_of_run_rules v content :
  rewrite_of v content = run_rules (rules_of v) content.
Proof. by destruct v. Qed.

Lemma run_rules_no_match rs : ∀ content,
  (∀ ru, ru ∈ rs → search ru.1 content = None) → run_rules rs content = content.
Proof.
  unfold run_rules.
  induction rs as [|ru rs IH]; intros content H; simpl; [done|].
  assert (apply ru content = content) as ->.
  { apply sub_no_match, H. left. }
  apply IH. intros ru' Hin. apply H. by right.
Qed.

Lemma no_rule_matches_spec v content :
  no_rule_matches v content ↔
  ∀ ru pre t post gs,
    ru ∈ rules_of v → content = pre +:+ t +:+ post → ¬ matches ru.1 t gs.
Proof.
  split.
  - intros Hno ru pre t post gs Hin -> Ht.
    apply (proj2 (search_matches ru.1 (pre +:+ t +:+ post))); [|by apply Hno].
    by exists pre, t, post, gs.
  - intros Hno ru Hin.
    destruct (search ru.1 content) as [m|] eqn:E; [|done].
    assert (search ru.1 content ≠ None) as Hs by (by rewrite E).
    apply search_matches in Hs as (pre & t & post & gs & -> & Ht).
    by destruct (Hno ru pre t post gs).
Qed.

Lemma rewrite_no_match v content :
  no_rule_matches v content → rewrite_of v content = content.
Proof. intros H. rewrite rewrite_of_run_rules. by apply run_rules_no_match. Qed.

(** Every pattern of either script opens with [expectTypeOf]. *)
Lemma rules_open_with_expectTypeOf v ru :
  ru ∈ rules_of v → ∃ l r, ru.1 = Lit ("expectTypeOf" +:+ l) :: r.
Proof.
  destruct v; cbn [rules_of rules_all rules_remaining]; intros H;
    repeat (apply elem_of_cons in H as [-> | H]; [by eexists (String _ ""), _ |]);
    by apply elem_of_nil in H.
Qed.

Lemma no_rule_matches_of_occurs v content :
  occurs "expectTypeOf" content = false → no_rule_matches v content.
Proof.
  intros H [r0 rp] Hin.
  destruct (rules_open_with_expectTypeOf _ _ Hin) as (l & r & E).
  simpl in *. subst r0. by apply search_None_of_occurs.
Qed.










End Pipelines.

(** *** Worked examples *)

(** Each assertion on a line is rewritten on its own: the groups are lazy. *)
Example two_assertions_on_a_line :
  rewrite_all "expectTypeOf<A>().toEqualTypeOf<B>(); expectTypeOf(v).toMatchTypeOf<C>()"
  = "Ts.Assert.exact.ofAs<B>().onAs<A>(); Ts.Assert.sub.ofAs<C>().on(v)".
Proof. vm_compute; reflexivity. Qed.

(** A type argument broken over two lines is out of reach of [.], which
    stops at a line break, and within reach of [.] under [re.DOTALL]. *)
Example type_argument_over_two_lines :
  let content :=
    "expectTypeOf<A" +:+ String newline ">().toEqualTypeOf<B>()" in
  rewrite_all content = content ∧
  rewrite_remaining content =
    "Ts.Assert.exact.ofAs<B>().onAs<A" +:+ String newline ">()".
Proof. split; vm_compute; reflexivity. Qed.

(** The class [[^)]] stops at the first closing parenthesis, so a call
    inside the argument keeps the rule from matching. *)
Example nested_parentheses_not_matched :
  rewrite_all "expectTypeOf(f(x)).toEqualTypeOf(y)"
  = "expectTypeOf(f(x)).toEqualTypeOf(y)".
Proof. vm_compute; reflexivity. Qed.

(** C2: the type-only assertion [expectTypeOf<Foo>().toEqualTypeOf<Bar>()]
    is rewritten to [Ts.Assert.exact.ofAs<Bar>().onAs<Foo>()] by the rule
    pipeline of either script. *)
Theorem type_only_example :
  rewrite_all "expectTypeOf<Foo>().toEqualTypeOf<Bar>()"
    = "Ts.Assert.exact.ofAs<Bar>().onAs<Foo>()" ∧
  rewrite_remaining "expectTypeOf<Foo>().toEqualTypeOf<Bar>()"
    = "Ts.Assert.exact.ofAs<Bar>().onAs<Foo>()".
Proof. split; vm_compute; reflexivity. Qed.

(** C3, as stated, fails: [fix-remaining.py] has no rule for comparing two
    values, so its pipeline does not produce the [typeof] form. *)
Lemma value_value_example_not_in_both :
  ¬ (rewrite_all "expectTypeOf(x).toEqualTypeOf(y)"
       = "Ts.Assert.exact.ofAs<typeof y>().on(x)" ∧
     rewrite_remaining "expectTypeOf(x).toEqualTypeOf(y)"
       = "Ts.Assert.exact.ofAs<typeof y>().on(x)").
Proof. intros [_ H]. vm_compute in H. discriminate H. Qed.

(** C3, amended: the pipeline of [fix-all-patterns.py] rewrites
    [expectTypeOf(x).toEqualTypeOf(y)] to
    [Ts.Assert.exact.ofAs<typeof y>().on(x)]; the pipeline of
    [fix-remaining.py] returns that input unchanged. *)
Theorem value_value_example :
  rewrite_all "expectTypeOf(x).toEqualTypeOf(y)"
    = "Ts.Assert.exact.ofAs<typeof y>().on(x)" ∧
  rewrite_remaining "expectTypeOf(x).toEqualTypeOf(y)"
    = "expectTypeOf(x).toEqualTypeOf(y)".
Proof. split; vm_compute; reflexivity. Qed.

(** *** Order of the rules *)

(** C7: [fix-all-patterns.py] applies its six rules in the order written,
    each to the result of the one before, and the order matters: on some
    input the same rules in another order give another result. *)
Theorem rule_order_matters :
  (∀ content,
     rewrite_all content = fold_left (λ c ru, apply ru c) rules_all content) ∧
  (∃ content rs,
     Permutation rules_all rs ∧ run_rules rs content ≠ rewrite_all content).
Proof.
  split; [done|].
  exists "expectTypeOf<A>().toEqualTypeOf<expectTypeOf<B>().toMatchTypeOf<C>()",
    (rev rules_all).
  split; [apply Permutation_rev|].
  vm_compute. discriminate.
Qed.

(** *** Text without [expectTypeOf] *)

(** C9: a content in which [expectTypeOf] does not occur passes through the
    rule pipeline of either script unchanged. *)
Theorem untouched_without_expectTypeOf (content : string) :
  occurs "expectTypeOf" content = false →
  rewrite_all content = content ∧ rewrite_remaining content = content.
Proof.
  intros H. split.
  - apply (rewrite_no_match AllPatterns), no_rule_matches_of_occurs, H.
  - apply (rewrite_no_match Remaining), no_rule_matches_of_occurs, H.
Qed.

Lemma untouched_without_expectTypeOf_witness :
  occurs "expectTypeOf" "expect(typeof x).toBe('string')" = false ∧
  rewrite_all "expect(typeof x).toBe('string')" = "expect(typeof x).toBe('string')" ∧
  rewrite_remaining "expect(typeof x).toBe('string')" = "expect(typeof x).toBe('string')".
Proof.
  split; [vm_compute; reflexivity|].
  apply (untouched_without_expectTypeOf "expect(typeof x).toBe('string')").
  vm_compute; reflexivity.
Defined.

(** *** Running the pipeline twice *)


(** ** [fix_file] *)

Section FixFile.

(** [fix_file] by cases on the disk. *)
Lemma fix_file_eq v filepath w :
  fix_file_of v filepath w =
  match fs w !! filepath with
  | None => (inl (FileNotFoundError filepath), w)
  | Some f =>
      let final := rewrite_of v (text f) in
      if decide (final ≠ text f) then
        if writable f then
          (inr true,
           {| fs := <[filepath := {| text := final; writable := true |}]> (fs w);
              log := log w ++ [Write filepath final; Print (fixed_line filepath)] |})
        else (inl (PermissionError filepath), w)
      else
        (inr false,
         {| fs := fs w; log := log w ++ [Print (no_changes_line filepath)] |})
  end.
Proof.
  destruct v; cbn [fix_file_of rewrite_of];
    unfold FixAllPatterns.fix_file, FixRemaining.fix_file, bind, read_text;
    (destruct (fs w !! filepath) as [f|] eqn:Hf; [|done]);
    unfold ret at 1;
    cbn zeta; case_decide; unfold bind, write_text, store, print, ret, raise;
    cbn [fs log];
    rewrite ?Hf; try done;
    (destruct (writable f); [|done]);
    cbn [fs log]; by rewrite <- app_assoc.
Qed.



(** C6: when no rule's pattern matches the text of a file, the pipeline
    returns that text, and [fix_file] leaves the disk as it is, writes
    nothing, prints the "no changes" line and returns false. *)
Theorem no_match_no_change
    (v : script) (filepath : string) (w : world) (f : file) :
  fs w !! filepath = Some f →
  no_rule_matches v (text f) →
  rewrite_of v (text f) = text f ∧
  fix_file_of v filepath w =
    (inr false,
     {| fs := fs w; log := log w ++ [Print (no_changes_line filepath)] |}) ∧
  written [Print (no_changes_line filepath)] = [].
Proof.
  intros Hf Hno. apply rewrite_no_match in Hno.
  split; [done|]. split; [|done].
  rewrite fix_file_eq, Hf. cbn zeta. by case_decide.
Qed.

Lemma no_match_no_change_witness :
  let filepath := "src/utils/fs/$.test.ts" in
  let f := {| text := "expect(add(1, 2)).toBe(3)"; writable := true |} in
  let w := {| fs := {[ filepath := f ]}; log := [] |} in
  (fs w !! filepath = Some f ∧ no_rule_matches Remaining (text f)) ∧
  rewrite_of Remaining (text f) = text f ∧
  fix_file_of Remaining filepath w =
    (inr false,
     {| fs := fs w; log := log w ++ [Print (no_changes_line filepath)] |}) ∧
  written [Print (no_changes_line filepath)] = [].
Proof.
  intros filepath f w.
  assert (fs w !! filepath = Some f) as Hf by (vm_compute; reflexivity).
  assert (no_rule_matches Remaining (text f)) as Hno.
  { intros ru Hin.
    repeat (apply elem_of_cons in Hin as [-> | Hin]; [vm_compute; reflexivity|]).
    by apply elem_of_nil in Hin. }
  split; [by split|].
  exact (no_match_no_change Remaining filepath w f Hf Hno).
Defined.

(** C10: the outcome of [fix_file] is a function of the text of the file:
    two calls that read the same text, on whatever disks and paths, return
    the same value and leave the same text in their file, namely the
    pipeline's result on the text read. *)
Theorem fix_file_depends_only_on_content
    (v : script) (p1 p2 : string) (w1 w2 w1' w2' : world)
    (f1 f2 : file) (b1 b2 : bool) :
  fs w1 !! p1 = Some f1 →
  fs w2 !! p2 = Some f2 →
  text f1 = text f2 →
  fix_file_of v p1 w1 = (inr b1, w1') →
  fix_file_of v p2 w2 = (inr b2, w2') →
  b1 = b2 ∧
  b1 = bool_decide (rewrite_of v (text f1) ≠ text f1) ∧
  text <$> fs w1' !! p1 = Some (rewrite_of v (text f1)) ∧
  text <$> fs w2' !! p2 = Some (rewrite_of v (text f1)).
Proof.
  intros Hf1 Hf2 Ht. rewrite !fix_file_eq, Hf1, Hf2, <- Ht. cbn zeta.
  case_decide as Hne.
  - destruct (writable f1), (writable f2); try done.
    intros [= <- <-] [= <- <-]. cbn [fs].
    rewrite !lookup_insert_eq, bool_decide_eq_true_2 by done. done.
  - intros [= <- <-] [= <- <-]. cbn [fs].
    rewrite Hf1, Hf2, bool_decide_eq_false_2 by (by intros []).
    cbn. by rewrite <- Ht, Hne.
Qed.

Lemma fix_file_depends_only_on_content_witness :
  let f1 := {| text := "expectTypeOf<Foo>().toEqualTypeOf<Bar>()"; writable := true |} in
  let f2 := {| text := "expectTypeOf<Foo>().toEqualTypeOf<Bar>()"; writable := true |} in
  let p1 := "src/utils/ts/print.test.ts" in
  let p2 := "src/domains/idx/$.test.ts" in
  let w1 := {| fs := {[ p1 := f1 ]}; log := [] |} in
  let w2 := {| fs := {[ p2 := f2;
                        p1 := {| text := "other"; writable := false |} ]};
               log := [Print "earlier output"] |} in
  let w1' := (fix_file_of Remaining p1 w1).2 in
  let w2' := (fix_file_of Remaining p2 w2).2 in
  (fs w1 !! p1 = Some f1 ∧ fs w2 !! p2 = Some f2 ∧ text f1 = text f2 ∧
   fix_file_of Remaining p1 w1 = (inr true, w1') ∧
   fix_file_of Remaining p2 w2 = (inr true, w2')) ∧
  true = true ∧
  true = bool_decide (rewrite_of Remaining (text f1) ≠ text f1) ∧
  text <$> fs w1' !! p1 = Some (rewrite_of Remaining (text f1)) ∧
  text <$> fs w2' !! p2 = Some (rewrite_of Remaining (text f1)).
Proof.
  intros f1 f2 p1 p2 w1 w2 w1' w2'.
  assert (fs w1 !! p1 = Some f1) as H1 by (vm_compute; reflexivity).
  assert (fs w2 !! p2 = Some f2) as H2 by (vm_compute; reflexivity).
  assert (text f1 = text f2) as Ht by reflexivity.
  assert (fix_file_of Remaining p1 w1 = (inr true, w1')) as R1
    by (vm_compute; reflexivity).
  assert (fix_file_of Remaining p2 w2 = (inr true, w2')) as R2
    by (vm_compute; reflexivity).
  split; [done|].
  exact (fix_file_depends_only_on_content
           Remaining p1 p2 w1 w2 w1' w2' f1 f2 true true H1 H2 Ht R1 R2).
Defined.



End FixFile.

(** ** The main loops *)

Section MainLoop.

Lemma printed_app l1 l2 : printed (l1 ++ l2) = printed l1 ++ printed l2.
Proof. apply omap_app. Qed.

(** What a call of [fix_file] adds to the log. *)
Lemma fix_file_log v filepath w r w' :
  fix_file_of v filepath w = (r, w') →
  ∃ new, log w' = log w ++ new ∧
         printed new = if returned r then [report_line filepath r] else [].
Proof.
  rewrite fix_file_eq.
  destruct (fs w !! filepath) as [f|].
  - cbn zeta. case_decide; [destruct (writable f)|];
      intros [= <- <-]; cbn [fs log].
    + by eexists.
    + exists []. by rewrite app_nil_r.
    + by eexists.
  - intros [= <- <-]. exists []. by rewrite app_nil_r.
Qed.

(** The result of a call and the files it leaves depend on the files only. *)
Lemma fix_file_fs v filepath w1 w2 :
  fs w1 = fs w2 →
  (fix_file_of v filepath w1).1 = (fix_file_of v filepath w2).1 ∧
  fs (fix_file_of v filepath w1).2 = fs (fix_file_of v filepath w2).2.
Proof.
  intros E. rewrite !fix_file_eq, E.
  destruct (fs w2 !! filepath) as [f|]; [|done].
  cbn zeta. case_decide; [destruct (writable f)|]; done.
Qed.

Lemma outcomes_fs v fl :
  ∀ w1 w2, fs w1 = fs w2 → outcomes v fl w1 = outcomes v fl w2.
Proof.
  induction fl as [|p fl IH]; intros w1 w2 E; [done|].
  cbn [outcomes].
  destruct (fix_file_fs v p w1 w2 E) as [E1 E2].
  destruct (fix_file_of v p w1) as [r1 u1], (fix_file_of v p w2) as [r2 u2].
  cbn in E1, E2. subst r2. f_equal. by apply IH.
Qed.

Lemma outcomes_length v fl : ∀ w, length (outcomes v fl w) = length fl.
Proof.
  induction fl as [|p fl IH]; intros w; [done|].
  cbn [outcomes]. destruct (fix_file_of v p w). cbn. by rewrite IH.
Qed.

Lemma count_true_cons r rs :
  count_true (r :: rs) = (if returned_true r then 1 else 0) + count_true rs.
Proof. unfold count_true. cbn. by destruct (returned_true r). Qed.

(** The loop of [fix-all-patterns.py] goes through the whole list. *)
Lemma loop_all_spec fl : ∀ n w,
  let rs := outcomes AllPatterns fl w in
  ∃ w' new,
    FixAllPatterns.loop fl n w = (inr (n + count_true rs), w') ∧
    log w' = log w ++ new ∧
    printed new = zip_with report_line fl rs.
Proof.
  induction fl as [|p fl IH]; intros n w; cbn zeta.
  - exists w, []. cbn. unfold ret. by rewrite Nat.add_0_r, app_nil_r.
  - cbn [FixAllPatterns.loop outcomes].
    change (FixAllPatterns.fix_file p) with (fix_file_of AllPatterns p).
    unfold bind at 1, try_except, bind at 1.
    destruct (fix_file_of AllPatterns p w) as [[e|b] w1] eqn:E;
      destruct (fix_file_log _ _ _ _ _ E) as (new1 & Hl1 & Hp1); cbn in Hp1.
    + unfold bind at 1, print, ret. cbn [fs log].
      set (w2 := {| fs := fs w1; log := log w1 ++ [Print (error_line p e)] |}).
      destruct (IH n w2) as (w' & new & Hrun & Hl & Hp).
      rewrite (outcomes_fs AllPatterns fl w2 w1) in Hrun, Hp by done.
      exists w', (new1 ++ Print (error_line p e) :: new).
      rewrite Hrun, Hl, count_true_cons. subst w2. cbn [log returned_true].
      rewrite Hl1, !printed_app, Hp1.
      change (printed (Print (error_line p e) :: new))
        with (error_line p e :: printed new).
      rewrite Hp, <- !app_assoc. done.
    + unfold ret.
      destruct (IH (if b then n + 1 else n) w1) as (w' & new & Hrun & Hl & Hp).
      exists w', (new1 ++ new).
      rewrite Hrun, Hl, Hl1, count_true_cons, printed_app, Hp1, Hp.
      rewrite <- app_assoc. repeat split; try done.
      do 2 f_equal. destruct b; cbn; lia.
Qed.

(** The loop of [fix-remaining.py] goes through the whole list when no
    call raises. *)
Lemma loop_remaining_spec fl : ∀ n w,
  let rs := outcomes Remaining fl w in
  Forall (λ r, returned r = true) rs →
  ∃ w' new,
    FixRemaining.loop fl n w = (inr (n + count_true rs), w') ∧
    log w' = log w ++ new ∧
    printed new = zip_with report_line fl rs.
Proof.
  induction fl as [|p fl IH]; intros n w; cbn zeta.
  - intros _. exists w, []. cbn. unfold ret. by rewrite Nat.add_0_r, app_nil_r.
  - cbn [FixRemaining.loop outcomes].
    change (FixRemaining.fix_file p) with (fix_file_of Remaining p).
    unfold bind at 1.
    destruct (fix_file_of Remaining p w) as [[e|b] w1] eqn:E;
      destruct (fix_file_log _ _ _ _ _ E) as (new1 & Hl1 & Hp1); cbn in Hp1.
    + intros Hall. apply Forall_cons_1 in Hall as [? _]. done.
    + intros Hall. apply Forall_cons_1 in Hall as [_ Hall].
      destruct (IH (if b then n + 1 else n) w1 Hall) as (w' & new & Hrun & Hl & Hp).
      exists w', (new1 ++ new).
      rewrite Hrun, Hl, Hl1, count_true_cons, printed_app, Hp1, Hp.
      rewrite <- app_assoc. repeat split; try done.
      do 2 f_equal. destruct b; cbn; lia.
Qed.

(** A missing file stops [fix-remaining.py] on the spot. *)
Lemma remaining_stops_at_missing_file filepath fl w :
  fs w !! filepath = None →
  FixRemaining.run (filepath :: fl) w = (inl (FileNotFoundError filepath), w).
Proof.
  intros Hf. unfold FixRemaining.run. cbn [FixRemaining.loop].
  unfold bind at 1, bind at 1.
  change (FixRemaining.fix_file filepath) with (fix_file_of Remaining filepath).
  by rewrite fix_file_eq, Hf.
Qed.

Lemma report_line_returned filepath r :
  returned r = true → report_line filepath r = two_way_line filepath r.
Proof. by destruct r as [e|[]]. Qed.

Lemma zip_with_report_line_returned fl : ∀ rs,
  Forall (λ r, returned r = true) rs →
  zip_with report_line fl rs = zip_with two_way_line fl rs.
Proof.
  induction fl as [|p fl IH]; intros rs Hall; [done|].
  destruct Hall as [|r rs Hr Hall]; [done|].
  cbn. by rewrite report_line_returned, IH.
Qed.

(** C4, on the failing input: with the first listed file missing,
    [fix-remaining.py] ends with the exception of that file, having printed
    nothing, neither a line for a later file nor the summary, and having
    left the second file unprocessed.  On the same disk
    [fix-all-patterns.py] reports the missing files, rewrites the second
    file and prints the summary. *)
Theorem missing_file_stops_remaining :
  FixRemaining.main disk_second_only =
    (inl (FileNotFoundError "src/utils/ts/print.test.ts"), disk_second_only) ∧
  ∃ w',
    FixAllPatterns.main disk_second_only = (inr (), w') ∧
    printed (log w') =
      [error_line "src/utils/ts/print.test.ts"
         (FileNotFoundError "src/utils/ts/print.test.ts");
       fixed_line "src/utils/mask/mask.test-d.ts"]
      ++ map (λ p, error_line p (FileNotFoundError p)) (drop 2 files)
      ++ [summary_line 1] ∧
    text <$> fs w' !! "src/utils/mask/mask.test-d.ts"
      = Some "Ts.Assert.exact.ofAs<Bar>().onAs<Foo>()".
Proof.
  split.
  - by apply remaining_stops_at_missing_file.
  - eexists. split; [vm_compute; reflexivity|].
    split; vm_compute; reflexivity.
Qed.

(** C8, as stated, fails when a listed file cannot be processed:
    [fix-all-patterns.py] prints an error line for it, which is neither the
    success line nor the "no changes" line, and [fix-remaining.py] prints
    no summary. *)
Lemma report_not_two_way_on_missing_file :
  ¬ reports_two_way AllPatterns disk_second_only ∧
  ¬ reports_two_way Remaining disk_second_only.
Proof.
  split; intros (w' & new & Hm & Hl & Hp).
  - assert (w' = (main_of AllPatterns disk_second_only).2) as ->
      by (by rewrite Hm).
    change (log disk_second_only ++ new) with new in Hl.
    rewrite <- Hl in Hp. vm_compute in Hp. discriminate Hp.
  - vm_compute in Hm. discriminate Hm.
Qed.

(** C8, amended: when [fix_file] returns for every listed file, either
    script prints one line per file, the success line where the call
    returned true and the "no changes" line where it returned false, and
    then the summary with the number of calls that returned true.
    [fix-all-patterns.py] prints that summary in every run, with an error
    line for each file whose call raised. *)
Theorem report_per_file_and_summary (w : world) :
  (∀ v, Forall (λ r, returned r = true) (outcomes v files w) →
        reports_two_way v w) ∧
  (let rs := outcomes AllPatterns files w in
   ∃ w' new,
     FixAllPatterns.main w = (inr (), w') ∧ log w' = log w ++ new ∧
     printed new = zip_with report_line files rs ++ [summary_line (count_true rs)]).
Proof.
  assert (∀ rs, (let rs := rs in
    ∃ w' new,
     FixAllPatterns.loop files 0 w = (inr (0 + count_true rs), w') ∧
     log w' = log w ++ new ∧ printed new = zip_with report_line files rs) →
    ∃ w' new,
     FixAllPatterns.main w = (inr (), w') ∧ log w' = log w ++ new ∧
     printed new = zip_with report_line files rs ++ [summary_line (count_true rs)])
    as Hall.
  { intros rs (w1 & new & Hrun & Hl & Hp).
    exists {| fs := fs w1; log := log w1 ++ [Print (summary_line (count_true rs))] |},
      (new ++ [Print (summary_line (count_true rs))]).
    unfold FixAllPatterns.main, FixAllPatterns.run, bind, print.
    rewrite Hrun. cbn [log]. rewrite Hl, printed_app, Hp, app_assoc. done. }
  split.
  - intros v Hret. unfold reports_two_way.
    rewrite <- (zip_with_report_line_returned _ _ Hret).
    destruct v; [apply Hall, loop_all_spec|].
    destruct (loop_remaining_spec files 0 w Hret) as (w1 & new & Hrun & Hl & Hp).
    set (rs := outcomes Remaining files w) in *.
    exists {| fs := fs w1; log := log w1 ++ [Print (summary_line (count_true rs))] |},
      (new ++ [Print (summary_line (count_true rs))]).
    unfold main_of, FixRemaining.main, FixRemaining.run, bind, print.
    rewrite Hrun. cbn [log]. rewrite Hl, printed_app, Hp, app_assoc. done.
  - apply Hall, loop_all_spec.
Qed.

Lemma report_per_file_and_summary_witness :
  Forall (λ r, returned r = true) (outcomes Remaining files disk_complete) ∧
  reports_two_way Remaining disk_complete.
Proof.
  assert (Forall (λ r, returned r = true)
            (outcomes Remaining files disk_complete)) as Hret
    by (vm_compute; repeat constructor).
  split; [exact Hret|].
  exact (proj1 (report_per_file_and_summary disk_complete) Remaining Hret).
Defined.

End MainLoop.

(** ** More on [fix_file] and the runs *)

Section Runs.

Lemma fix_file_frame (v : script) (filepath : string) (w : world) :
  let w' := (fix_file_of v filepath w).2 in
  (∀ q, q ≠ filepath → fs w' !! q = fs w !! q) ∧
  (∀ q, writable <$> fs w' !! q = writable <$> fs w !! q).
Proof.
  cbn zeta. rewrite fix_file_eq.
  destruct (fs w !! filepath) as [f|] eqn:Hf; [|done].
  cbn zeta. case_decide; [destruct (writable f) eqn:Hw|]; cbn [snd fs]; try done.
  split.
  - intros q Hq. by rewrite lookup_insert_ne.
  - intros q. destruct (decide (q = filepath)) as [->|Hq].
    + by rewrite lookup_insert_eq, Hf; cbn; rewrite Hw.
    + by rewrite lookup_insert_ne.
Qed.

(** X1: a call of [fix_file] reads and writes its own file only: every other
    path holds after the call what it held before, however the call ends,
    and no path changes whether it may be written. *)
Theorem fix_file_touches_only_its_file
    (v : script) (filepath : string) (w : world) :
  let w' := (fix_file_of v filepath w).2 in
  (∀ q, q ≠ filepath → fs w' !! q = fs w !! q) ∧
  (∀ q, writable <$> fs w' !! q = writable <$> fs w !! q).
Proof. apply fix_file_frame. Qed.

Lemma fix_file_touches_only_its_file_witness :
  let w' := (fix_file_of AllPatterns "src/utils/ts/print.test.ts" disk_complete).2 in
  "src/utils/fs/$.test.ts" ≠ "src/utils/ts/print.test.ts" ∧
  fs w' !! "src/utils/fs/$.test.ts" = fs disk_complete !! "src/utils/fs/$.test.ts".
Proof.
  intros w'.
  assert ("src/utils/fs/$.test.ts" ≠ "src/utils/ts/print.test.ts") as Hne by done.
  split; [exact Hne|].
  exact (proj1 (fix_file_touches_only_its_file
                  AllPatterns "src/utils/ts/print.test.ts" disk_complete)
               "src/utils/fs/$.test.ts" Hne).
Defined.

Lemma fix_file_raise_cases
    (v : script) (filepath : string) (w w' : world) (e : exn) :
  fix_file_of v filepath w = (inl e, w') ↔
  w' = w ∧
  ((fs w !! filepath = None ∧ e = FileNotFoundError filepath) ∨
   (∃ f, fs w !! filepath = Some f ∧ rewrite_of v (text f) ≠ text f ∧
         writable f = false ∧ e = PermissionError filepath)).
Proof.
  rewrite fix_file_eq.
  destruct (fs w !! filepath) as [f|] eqn:Hf.
  - cbn zeta. case_decide as Hne; [destruct (writable f) eqn:Hw|].
    + split; [done|]. intros [_ [[? _]|(g & [= <-] & _ & ? & _)]]; congruence.
    + split.
      * intros [= <- <-]. split; [done|]. right. by exists f.
      * intros [-> [[? _]|(g & _ & _ & _ & ->)]]; done.
    + split; [done|]. intros [_ [[? _]|(g & [= <-] & ? & _)]]; done.
  - split.
    + intros [= <- <-]. split; [done|]. by left.
    + intros [-> [[_ ->]|(g & ? & _)]]; done.
Qed.


(** What a call adds to the log: at most one write, and one exactly when
    it returns true. *)
Lemma fix_file_trace v filepath w r w' :
  fix_file_of v filepath w = (r, w') →
  ∃ new,
    log w' = log w ++ new ∧
    length (written new) = (if returned_true r then 1 else 0) ∧
    length (printed new) = (if returned r then 1 else 0).
Proof.
  rewrite fix_file_eq.
  destruct (fs w !! filepath) as [f|].
  - cbn zeta. case_decide; [destruct (writable f)|];
      intros [= <- <-]; cbn [fs log].
    + by eexists.
    + exists []. by rewrite app_nil_r.
    + by eexists.
  - intros [= <- <-]. exists []. by rewrite app_nil_r.
Qed.

Lemma written_app l1 l2 : written (l1 ++ l2) = written l1 ++ written l2.
Proof. apply omap_app. Qed.

Lemma disk_after_cons v filepath fl w :
  disk_after v (filepath :: fl) w
  = disk_after v fl (fix_file_of v filepath w).2.
Proof. done. Qed.

Lemma disk_after_fs v fl : ∀ w1 w2,
  fs w1 = fs w2 → fs (disk_after v fl w1) = fs (disk_after v fl w2).
Proof.
  induction fl as [|p fl IH]; intros w1 w2 E; [done|].
  rewrite !disk_after_cons. apply IH. by apply fix_file_fs.
Qed.


Lemma rewritten_file_writable v f : writable (rewritten_file v f) = writable f.
Proof. unfold rewritten_file. by destruct (writable f) eqn:E. Qed.


(** The loop of [fix-all-patterns.py]: count, log and disk at its end. *)
Lemma loop_all_trace fl : ∀ n w,
  ∃ w' new,
    FixAllPatterns.loop fl n w = (inr (n + length (written new)), w') ∧
    log w' = log w ++ new ∧
    length (printed new) = length fl ∧
    fs w' = fs (disk_after AllPatterns fl w).
Proof.
  induction fl as [|p fl IH]; intros n w.
  - exists w, []. cbn. unfold ret. by rewrite Nat.add_0_r, app_nil_r.
  - cbn [FixAllPatterns.loop]. rewrite disk_after_cons.
    change (FixAllPatterns.fix_file p) with (fix_file_of AllPatterns p).
    unfold bind at 1, try_except, bind at 1.
    destruct (fix_file_of AllPatterns p w) as [[e|b] w1] eqn:E;
      destruct (fix_file_trace _ _ _ _ _ E) as (new1 & Hl1 & Hw1 & Hp1);
      cbn in Hw1, Hp1; cbn [snd].
    + unfold bind at 1, print, ret. cbn [fs log].
      set (w2 := {| fs := fs w1; log := log w1 ++ [Print (error_line p e)] |}).
      destruct (IH n w2) as (w' & new & Hrun & Hl & Hp & Hfs).
      exists w', (new1 ++ Print (error_line p e) :: new).
      rewrite Hrun, Hl, Hfs. subst w2. cbn [log].
      rewrite Hl1, written_app, printed_app, !length_app, Hw1, Hp1.
      change (written (Print (error_line p e) :: new)) with (written new).
      change (printed (Print (error_line p e) :: new))
        with (error_line p e :: printed new).
      cbn [length]. rewrite Hp, <- !app_assoc.
      repeat split; try done. by apply disk_after_fs.
    + unfold ret.
      destruct (IH (if b then n + 1 else n) w1) as (w' & new & Hrun & Hl & Hp & Hfs).
      exists w', (new1 ++ new).
      rewrite Hrun, Hl, Hl1, written_app, printed_app, !length_app, Hw1, Hp1, Hp.
      rewrite <- app_assoc. repeat split; try done.
      do 2 f_equal. destruct b; cbn; lia.
Qed.

(** The loop of [fix-remaining.py] raises exactly when a call raises, with
    the exception of that call and in the world the calls before it left. *)
Lemma loop_remaining_raises fl : ∀ n w e w',
  FixRemaining.loop fl n w = (inl e, w') ↔
  ∃ done filepath rest,
    fl = done ++ filepath :: rest ∧
    Forall (λ r, returned r = true) (outcomes Remaining done w) ∧
    fix_file_of Remaining filepath (disk_after Remaining done w) = (inl e, w').
Proof.
  induction fl as [|p fl IH]; intros n w e w'.
  - split; [done|]. by intros ([|??] & ? & ? & ? & _).
  - cbn [FixRemaining.loop].
    change (FixRemaining.fix_file p) with (fix_file_of Remaining p).
    unfold bind at 1.
    destruct (fix_file_of Remaining p w) as [[e0|b] w1] eqn:E.
    + split.
      * intros [= <- <-]. by exists [], p, fl.
      * intros ([|d done] & q & rest & Hfl & Hall & Hq).
        -- injection Hfl as <- _.
           change (disk_after Remaining [] w) with w in Hq. congruence.
        -- injection Hfl as <- _. cbn [outcomes] in Hall. rewrite E in Hall.
           by apply Forall_cons_1 in Hall as [? _].
    + rewrite IH. split.
      * intros (done & q & rest & -> & Hall & Hq).
        exists (p :: done), q, rest. rewrite disk_after_cons.
        cbn [outcomes]. rewrite E. cbn [snd].
        split; [done|]. split; [|done]. by constructor.
      * intros ([|d done] & q & rest & Hfl & Hall & Hq).
        -- injection Hfl as <- _.
           change (disk_after Remaining [] w) with w in Hq. congruence.
        -- injection Hfl as <- ->. exists done, q, rest.
           rewrite disk_after_cons, E in Hq. cbn [outcomes] in Hall.
           rewrite E in Hall. by apply Forall_cons_1 in Hall as [_ ?].
Qed.

(** The loop of [fix-remaining.py], when it returns. *)
Lemma loop_remaining_trace fl : ∀ n w k w',
  FixRemaining.loop fl n w = (inr k, w') →
  ∃ new,
    k = n + length (written new) ∧
    log w' = log w ++ new ∧
    length (printed new) = length fl ∧
    w' = disk_after Remaining fl w.
Proof.
  induction fl as [|p fl IH]; intros n w k w'.
  - intros [= <- <-]. exists []. by rewrite Nat.add_0_r, app_nil_r.
  - cbn [FixRemaining.loop]. rewrite disk_after_cons.
    change (FixRemaining.fix_file p) with (fix_file_of Remaining p).
    unfold bind at 1.
    destruct (fix_file_of Remaining p w) as [[e|b] w1] eqn:E; [done|].
    destruct (fix_file_trace _ _ _ _ _ E) as (new1 & Hl1 & Hw1 & Hp1).
    cbn in Hw1, Hp1. cbn [snd].
    intros (new & -> & Hl & Hp & ->)%IH.
    exists (new1 ++ new).
    rewrite Hl, Hl1, written_app, printed_app, !length_app, Hw1, Hp1, Hp.
    rewrite <- app_assoc. repeat split; try done.
    destruct b; cbn; lia.
Qed.

(** What the calls before a failure have printed. *)
Lemma disk_after_printed v fl : ∀ w,
  Forall (λ r, returned r = true) (outcomes v fl w) →
  ∃ new,
    log (disk_after v fl w) = log w ++ new ∧
    printed new = zip_with two_way_line fl (outcomes v fl w).
Proof.
  induction fl as [|p fl IH]; intros w.
  - intros _. exists []. by rewrite app_nil_r.
  - rewrite disk_after_cons. cbn [outcomes].
    destruct (fix_file_of v p w) as [r w1] eqn:E.
    intros [Hr Hall]%Forall_cons_1. cbn [snd].
    destruct (fix_file_log _ _ _ _ _ E) as (new1 & Hl1 & Hp1).
    rewrite Hr in Hp1.
    destruct (IH w1 Hall) as (new & Hl & Hp).
    exists (new1 ++ new).
    rewrite Hl, Hl1, printed_app, Hp1, Hp, <- app_assoc.
    split; [done|]. cbn. by rewrite report_line_returned.
Qed.



(** X4: the number in the summary is the number of files written during the
    run, and the summary comes after one line per listed path. *)
Theorem summary_counts_writes
    (v : script) (fl : list string) (w w' : world) :
  run_of v fl w = (inr (), w') →
  ∃ new lines,
    log w' = log w ++ new ∧
    printed new = lines ++ [summary_line (length (written new))] ∧
    length lines = length fl.
Proof.
  intros Hrun.
  assert (∃ w1 new1,
    log w1 = log w ++ new1 ∧ length (printed new1) = length fl ∧
    w' = {| fs := fs w1;
            log := log w1 ++ [Print (summary_line (0 + length (written new1)))] |})
    as (w1 & new1 & Hl & Hp & ->).
  { destruct v; cbn [run_of] in Hrun.
    - unfold FixAllPatterns.run, bind, print in Hrun.
      destruct (loop_all_trace fl 0 w) as (w1 & new & Hloop & Hl & Hp & _).
      rewrite Hloop in Hrun. injection Hrun as <-. by exists w1, new.
    - unfold FixRemaining.run, bind, print in Hrun.
      destruct (FixRemaining.loop fl 0 w) as [[e|k] w1] eqn:Hloop; [done|].
      apply loop_remaining_trace in Hloop as (new & -> & Hl & Hp & Hw).
      injection Hrun as <-. by exists w1, new. }
  exists (new1 ++ [Print (summary_line (length (written new1)))]), (printed new1).
  cbn [log]. rewrite Hl, <- app_assoc, printed_app, written_app.
  cbn. by rewrite app_nil_r.
Qed.

Lemma summary_counts_writes_witness :
  let w' := (run_of AllPatterns files disk_second_only).2 in
  run_of AllPatterns files disk_second_only = (inr (), w') ∧
  ∃ new lines,
    log w' = log disk_second_only ++ new ∧
    printed new = lines ++ [summary_line (length (written new))] ∧
    length lines = length files.
Proof.
  intros w'.
  assert (run_of AllPatterns files disk_second_only = (inr (), w')) as Hrun
    by (vm_compute; reflexivity).
  split; [exact Hrun|].
  exact (summary_counts_writes AllPatterns files disk_second_only w' Hrun).
Defined.

(** X5: [fix-remaining.py] ends with an exception exactly when a call of
    [fix_file] raises: the run ends with the exception of the first such
    call, in the world the calls before it left.  Those calls have printed
    their lines; nothing is printed for the failing file or a later one,
    and no summary. *)
Theorem remaining_stops_at_first_failure
    (fl : list string) (w w' : world) (e : exn) :
  FixRemaining.run fl w = (inl e, w') ↔
  ∃ done filepath rest new,
    fl = done ++ filepath :: rest ∧
    Forall (λ r, returned r = true) (outcomes Remaining done w) ∧
    fix_file_of Remaining filepath (disk_after Remaining done w) = (inl e, w') ∧
    w' = disk_after Remaining done w ∧
    log w' = log w ++ new ∧
    printed new = zip_with two_way_line done (outcomes Remaining done w).
Proof.
  assert (FixRemaining.run fl w = (inl e, w') ↔
          FixRemaining.loop fl 0 w = (inl e, w')) as ->.
  { unfold FixRemaining.run, bind.
    destruct (FixRemaining.loop fl 0 w) as [[e1|k] w1].
    - split; intros [= -> ->]; reflexivity.
    - unfold print. split; intros ?; discriminate. }
  rewrite loop_remaining_raises. split.
  - intros (done & p & rest & -> & Hall & Hp).
    pose proof (proj1 (fix_file_raise_cases _ _ _ _ _) Hp) as [-> _].
    destruct (disk_after_printed Remaining done w Hall) as (new & Hl & Hpr).
    by exists done, p, rest, new.
  - intros (done & p & rest & new & -> & Hall & Hp & _).
    by exists done, p, rest.
Qed.

End Runs.

(** ** Assertions and their arguments *)

Section Arguments.

Lemma append_empty_r s : s +:+ "" = s.
Proof. induction s as [|c s IH]; [done|]. by rewrite append_cons, IH. Qed.

Lemma free_cons c g :
  free (String c g) = true → delimiter c = false ∧ free g = true.
Proof.
  cbn [free]. intros [Hc Hg]%andb_prop. split; [|done].
  by destruct (delimiter c).
Qed.

Lemma plain_cons c g :
  plain (String c g) = true → special c = false ∧ plain g = true.
Proof.
  cbn [plain]. intros [Hc Hg]%andb_prop. split; [|done].
  by destruct (special c).
Qed.


Lemma free_app_r g1 g2 : free (g1 +:+ g2) = true → free g2 = true.
Proof.
  induction g1 as [|c g1 IH]; [done|].
  rewrite append_cons. intros [_ H]%free_cons. by apply IH.
Qed.

Lemma delimiter_neq c d : delimiter c = true → delimiter d = false → c ≠ d.
Proof. intros Hc Hd ->. congruence. Qed.

Lemma accepts_free k c :
  takes_free k = true → delimiter c = false → accepts k c = true.
Proof.
  destruct k as [d| |]; cbn [takes_free accepts]; intros Hk Hc; [| |done].
  - destruct (Ascii.eqb_spec c d) as [->|]; [congruence|done].
  - unfold delimiter in Hc. by destruct (Ascii.eqb c newline); rewrite ?orb_true_r in Hc.
Qed.

Lemma all_accepted_free k g :
  takes_free k = true → free g = true → all_accepted k g = true.
Proof.
  intros Hk. induction g as [|c g IH]; [done|].
  intros [Hc Hg]%free_cons. cbn [all_accepted].
  by rewrite accepts_free, IH.
Qed.


Lemma mem_app c g1 g2 : mem c (g1 +:+ g2) = mem c g1 || mem c g2.
Proof.
  induction g1 as [|d g1 IH]; [done|].
  rewrite append_cons. cbn [mem]. by rewrite IH, orb_assoc.
Qed.

Lemma mem_free c g : delimiter c = true → free g = true → mem c g = false.
Proof.
  intros Hc. induction g as [|d g IH]; [done|].
  intros [Hd Hg]%free_cons. cbn [mem]. rewrite IH by done.
  destruct (Ascii.eqb_spec c d) as [->|]; [congruence|done].
Qed.

Lemma match_here_strip_None l r s :
  strip l s = None → match_here (Lit l :: r) s = None.
Proof. cbn [match_here]. by intros ->. Qed.

Lemma match_here_Lit_app l r s :
  match_here (Lit l :: r) (l +:+ s) =
  match match_here r s with
  | Some m => Some {| groups := groups m; span := String.length l + span m |}
  | None => None
  end.
Proof. cbn [match_here]. by rewrite strip_app. Qed.

Lemma match_here_LazyPlus k r s :
  match_here (LazyPlus k :: r) s = lazy_plus k (match_here r) "" s.
Proof. done. Qed.

(** A lazy group stops at the first place where the rest of the pattern
    matches: it takes the text [A] when the class takes all of [A], the
    rest of the pattern matches after [A], and after no shorter part of
    [A]. *)
Lemma lazy_plus_shortest k rest A : ∀ taken s m,
  all_accepted k A = true → A ≠ "" →
  (∀ A1 A2, A = A1 +:+ A2 → A1 ≠ "" → A2 ≠ "" → rest (A2 +:+ s) = None) →
  rest s = Some m →
  lazy_plus k rest taken (A +:+ s) =
    Some {| groups := (taken +:+ A) :: groups m;
            span := String.length (taken +:+ A) + span m |}.
Proof.
  induction A as [|x A IH]; intros taken s m Hall Hne Hmin Hm; [done|].
  cbn [all_accepted] in Hall. apply andb_prop in Hall as [Hx Hall].
  rewrite append_cons. cbn [lazy_plus]. rewrite Hx.
  destruct A as [|y A].
  - by rewrite append_empty, Hm.
  - rewrite (Hmin (String x "") (String y A)) by done.
    assert (∀ A1 A2, String y A = A1 +:+ A2 → A1 ≠ "" → A2 ≠ "" →
                     rest (A2 +:+ s) = None) as Hmin'.
    { intros A1 A2 HA ??. apply (Hmin (String x A1) A2); [|done..].
      by rewrite append_cons, <- HA. }
    rewrite (IH (taken +:+ String x "") s m) by done.
    by rewrite append_assoc, append_cons, append_empty.
Qed.

(** After a text without the character a literal opens with, the literal
    is not met before the end of the text. *)
Lemma strip_head_absent c l B B1 B2 s :
  mem c B = false → B = B1 +:+ B2 → B2 ≠ "" →
  strip (String c l) (B2 +:+ s) = None.
Proof.
  intros Hmem -> Hne. rewrite mem_app in Hmem.
  apply orb_false_elim in Hmem as [_ Hmem].
  destruct B2 as [|d B2]; [done|].
  rewrite append_cons. cbn [strip]. cbn [mem] in Hmem.
  by apply orb_false_elim in Hmem as [-> _].
Qed.

Lemma strip_guarded l A2 rest :
  guards l = true → free A2 = true → A2 ≠ "" →
  strip l (A2 +:+ l +:+ rest) = None.
Proof.
  intros Hg HA Hne. destruct A2 as [|x A2]; [done|].
  apply free_cons in HA as [Hx HA]. rewrite append_cons.
  assert (∀ c, delimiter c = true → Ascii.eqb c x = false) as Hdx.
  { intros c Hc. apply Ascii.eqb_neq. by apply delimiter_neq. }
  destruct l as [|c0 [|c1 l]]; [done|..]; cbn [guards] in Hg.
  - cbn [strip]. by rewrite Hdx.
  - apply orb_prop in Hg as [Hc0|[Hc1 Hne01]%andb_prop].
    + cbn [strip]. by rewrite Hdx.
    + cbn [strip]. destruct (Ascii.eqb c0 x); [|done].
      destruct A2 as [|y A2].
      * rewrite append_empty, append_cons.
        rewrite Ascii.eqb_sym. by destruct (Ascii.eqb c0 c1).
      * apply free_cons in HA as [Hy _]. rewrite append_cons.
        assert (Ascii.eqb c1 y = false) as ->; [|done].
        apply Ascii.eqb_neq. by apply delimiter_neq.
Qed.

(** The shape of every rule: two lazy groups between three literals.  On a
    text that opens with an instance of that shape the rule replaces the
    instance and goes on after it. *)
Lemma apply_two_groups l0 k1 l1 k2 l2 rp A B rest :
  all_accepted k1 A = true → A ≠ "" →
  all_accepted k2 B = true → B ≠ "" →
  (∀ A1 A2, A = A1 +:+ A2 → A1 ≠ "" → A2 ≠ "" →
            strip l1 (A2 +:+ l1 +:+ B +:+ l2 +:+ rest) = None) →
  (∀ B1 B2, B = B1 +:+ B2 → B1 ≠ "" → B2 ≠ "" →
            strip l2 (B2 +:+ l2 +:+ rest) = None) →
  apply ([Lit l0; LazyPlus k1; Lit l1; LazyPlus k2; Lit l2], rp)
        (l0 +:+ A +:+ l1 +:+ B +:+ l2 +:+ rest)
  = replacement rp
      {| groups := [A; B];
         span := String.length (l0 +:+ A +:+ l1 +:+ B +:+ l2) |}
    +:+ apply ([Lit l0; LazyPlus k1; Lit l1; LazyPlus k2; Lit l2], rp) rest.
Proof.
  intros HA HAne HB HBne HminA HminB.
  assert (lazy_plus k2 (match_here [Lit l2]) "" (B +:+ l2 +:+ rest) =
          Some {| groups := [B]; span := String.length B + (String.length l2 + 0) |})
    as E2.
  { rewrite (lazy_plus_shortest k2 _ B "" (l2 +:+ rest)
               {| groups := []; span := String.length l2 + 0 |}); try done.
    - intros B1 B2 ???. by apply match_here_strip_None, (HminB B1).
    - by rewrite match_here_Lit_app. }
  assert (lazy_plus k1 (match_here [Lit l1; LazyPlus k2; Lit l2]) ""
            (A +:+ l1 +:+ B +:+ l2 +:+ rest) =
          Some {| groups := [A; B];
                  span := String.length A +
                          (String.length l1 +
                           (String.length B + (String.length l2 + 0))) |})
    as E1.
  { rewrite (lazy_plus_shortest k1 _ A "" (l1 +:+ B +:+ l2 +:+ rest)
               {| groups := [B];
                  span := String.length l1 +
                          (String.length B + (String.length l2 + 0)) |});
      try done.
    - intros A1 A2 ???. by apply match_here_strip_None, (HminA A1).
    - by rewrite match_here_Lit_app, match_here_LazyPlus, E2. }
  unfold apply. cbn [fst snd].
  apply (sub_replace _ _ _ _ (l0 +:+ A +:+ l1 +:+ B +:+ l2)).
  - rewrite match_here_Lit_app, match_here_LazyPlus, E1. cbn [groups span].
    do 2 f_equal. rewrite !length_append. lia.
  - by rewrite !append_assoc.
  - done.
  - intros H. apply (f_equal String.length) in H.
    rewrite !length_append in H. destruct A; [done|]. cbn in H. lia.
Qed.

(** The same for a text that is one instance with free arguments. *)
Lemma apply_two_groups_free l0 k1 l1 k2 l2 rp A B :
  takes_free k1 = true → takes_free k2 = true →
  guards l1 = true → guards l2 = true →
  free A = true → A ≠ "" → free B = true → B ≠ "" →
  apply ([Lit l0; LazyPlus k1; Lit l1; LazyPlus k2; Lit l2], rp)
        (l0 +:+ A +:+ l1 +:+ B +:+ l2)
  = replacement rp
      {| groups := [A; B];
         span := String.length (l0 +:+ A +:+ l1 +:+ B +:+ l2) |}.
Proof.
  intros Hk1 Hk2 Hl1 Hl2 HA HAne HB HBne.
  rewrite <- (append_empty_r l2) at 2.
  rewrite apply_two_groups; try done.
  - by rewrite append_empty_r.
  - by apply all_accepted_free.
  - by apply all_accepted_free.
  - intros A1 A2 -> _ ?. apply strip_guarded; [done| |done].
    by apply free_app_r in HA.
  - intros B1 B2 -> _ ?. apply strip_guarded; [done| |done].
    by apply free_app_r in HB.
Qed.

(** Where a literal of the pattern does not occur, the rule does nothing. *)
Lemma matches_literal r t gs l :
  matches r t gs → In (Lit l) r → occurs l t = true.
Proof.
  induction 1 as [|l' r t gs _ IH|k r g t gs _ _ _ IH]; intros Hin; [done|..].
  - apply occurs_true. destruct Hin as [[= ->]|Hin].
    + by exists "", t.
    + apply IH, occurs_true in Hin as (pre & post & ->).
      exists (l' +:+ pre), post. by rewrite append_assoc.
  - destruct Hin as [[=]|Hin].
    apply occurs_true. apply IH, occurs_true in Hin as (pre & post & ->).
    exists (g +:+ pre), post. by rewrite append_assoc.
Qed.

Lemma apply_absent ru l s :
  In (Lit l) ru.1 → occurs l s = false → apply ru s = s.
Proof.
  intros Hin Hocc. apply sub_no_match.
  destruct (search ru.1 s) as [m|] eqn:E; [|done].
  assert (search ru.1 s ≠ None) as Hs by (by rewrite E).
  apply search_matches in Hs as (pre & t & post & gs & -> & Ht).
  apply (matches_literal _ _ _ l) in Ht as (p1 & p2 & ->)%occurs_true; [|done].
  assert (occurs l (pre +:+ (p1 +:+ l +:+ p2) +:+ post) = true) as Hyes.
  { apply occurs_true. exists (pre +:+ p1), (p2 +:+ post).
    by rewrite !append_assoc. }
  congruence.
Qed.

(** Looking for a literal across an argument. *)
Lemma occurs_cons_None needle c s :
  strip needle (String c s) = None →
  occurs needle (String c s) = occurs needle s.
Proof. cbn [occurs]. by intros ->. Qed.

Lemma occurs_skip needle a s :
  (∀ a1 a2, a = a1 +:+ a2 → a2 ≠ "" → strip needle (a2 +:+ s) = None) →
  occurs needle (a +:+ s) = occurs needle s.
Proof.
  induction a as [|x a IH]; intros H; [done|].
  rewrite append_cons, occurs_cons_None.
  - apply IH. intros a1 a2 -> ?. by apply (H (String x a1)).
  - rewrite <- append_cons. by apply (H "").
Qed.

Lemma occurs_free_head c n a s :
  delimiter c = true → free a = true →
  occurs (String c n) (a +:+ s) = occurs (String c n) s.
Proof.
  intros Hc Ha. apply occurs_skip. intros a1 a2 -> ?.
  apply (strip_head_absent c n a2 "" a2); [|done..].
  apply mem_free; [done|]. by apply free_app_r in Ha.
Qed.

Lemma occurs_plain_head c n a s :
  special c = true → plain a = true →
  occurs (String c n) (a +:+ s) = occurs (String c n) s.
Proof.
  intros Hc. induction a as [|x a IH]; intros Ha; [done|].
  apply plain_cons in Ha as [Hx Ha].
  rewrite append_cons, occurs_cons_None; [by apply IH|].
  cbn [strip]. destruct (Ascii.eqb_spec c x) as [->|]; [congruence|done].
Qed.

Lemma occurs_free_second c0 c1 n a d s :
  delimiter c1 = true → free a = true → Ascii.eqb c1 d = false →
  occurs (String c0 (String c1 n)) (a +:+ String d s)
  = occurs (String c0 (String c1 n)) (String d s).
Proof.
  intros Hc1 Ha Hd. apply occurs_skip. intros a1 a2 -> Hne.
  apply free_app_r in Ha. destruct a2 as [|x a2]; [done|].
  apply free_cons in Ha as [_ Ha]. rewrite append_cons. cbn [strip].
  destruct (Ascii.eqb c0 x); [|done].
  destruct a2 as [|y a2].
  - rewrite append_empty. by rewrite Hd.
  - apply free_cons in Ha as [Hy _]. rewrite append_cons.
    assert (Ascii.eqb c1 y = false) as ->; [|done].
    apply Ascii.eqb_neq. by apply delimiter_neq.
Qed.

Lemma strip_blocked needle : ∀ a d s,
  free a = true → has_delimiter needle = true → mem d needle = false →
  strip needle (a +:+ String d s) = None.
Proof.
  induction needle as [|c n IH]; intros a d s Ha Hsp Hd; [done|].
  cbn [mem] in Hd. apply orb_false_elim in Hd as [Hdc Hd].
  destruct a as [|x a].
  - rewrite append_empty. cbn [strip].
    by rewrite Ascii.eqb_sym, Hdc.
  - apply free_cons in Ha as [Hx Ha].
    rewrite append_cons. cbn [strip].
    destruct (Ascii.eqb_spec c x) as [->|]; [|done].
    apply IH; [done| |done].
    cbn [has_delimiter] in Hsp. by rewrite Hx in Hsp.
Qed.

Lemma occurs_free_blocked needle a d s :
  free a = true → has_delimiter needle = true → mem d needle = false →
  occurs needle (a +:+ String d s) = occurs needle (String d s).
Proof.
  intros Ha Hsp Hd. apply occurs_skip. intros a1 a2 -> ?.
  apply strip_blocked; [|done..]. by apply free_app_r in Ha.
Qed.

End Arguments.

(** [absent] shows that a literal does not occur in a text made of
    literals and arguments; [skip_rule] drops a rule application one of
    whose literals is absent from its input; [fire_rule] replaces a rule
    application on an instance of its form. *)
Ltac absent :=
  rewrite ?append_assoc, ?append_cons, ?append_empty;
  repeat first
    [ reflexivity
    | rewrite occurs_cons_None by (vm_compute; reflexivity)
    | rewrite occurs_free_head by (assumption || reflexivity)
    | rewrite occurs_plain_head by (assumption || reflexivity)
    | rewrite occurs_free_second by (assumption || reflexivity)
    | rewrite occurs_free_blocked by (assumption || reflexivity) ].

Ltac skip_rule :=
  match goal with
  | |- context [apply (Lit ?l0 :: ?r, ?rp) ?s] =>
      rewrite (apply_absent (Lit l0 :: r, rp) l0 s ltac:(cbn; tauto))
        by absent
  | |- context [apply (Lit ?l0 :: LazyPlus ?k :: Lit ?l1 :: ?r, ?rp) ?s] =>
      rewrite (apply_absent (Lit l0 :: LazyPlus k :: Lit l1 :: r, rp) l1 s
                 ltac:(cbn; tauto))
        by absent
  end.

Ltac fire_rule :=
  rewrite apply_two_groups_free by (assumption || reflexivity);
  cbn [replacement expand replace_type_only group groups nth pred Init.Nat.pred].

Ltac rewrite_form :=
  cbn zeta;
  unfold value_value, value_sub, type_sub, type_not_sub, value_type,
    type_type, type_type_dotall;
  repeat first [skip_rule | fire_rule];
  reflexivity.

Section Forms.

(** X6: [fix-all-patterns.py] turns each of the six forms of assertion, written
    with free arguments (non-empty, on one line, without parentheses; angle
    brackets as in [Array<string>] are allowed), into its [Ts.Assert]
    counterpart: the arguments change places and arrive whole, and no
    other rule interferes. *)
Theorem all_patterns_rewrites_each_form (A B : string) :
  free A = true → A ≠ "" → free B = true → B ≠ "" →
  rewrite_all ("expectTypeOf(" +:+ A +:+ ").toEqualTypeOf(" +:+ B +:+ ")")
    = "Ts.Assert.exact.ofAs<typeof " +:+ B +:+ ">().on(" +:+ A +:+ ")" ∧
  rewrite_all ("expectTypeOf(" +:+ A +:+ ").toMatchTypeOf<" +:+ B +:+ ">()")
    = "Ts.Assert.sub.ofAs<" +:+ B +:+ ">().on(" +:+ A +:+ ")" ∧
  rewrite_all ("expectTypeOf<" +:+ A +:+ ">().toMatchTypeOf<" +:+ B +:+ ">()")
    = "Ts.Assert.sub.ofAs<" +:+ B +:+ ">().onAs<" +:+ A +:+ ">()" ∧
  rewrite_all ("expectTypeOf<" +:+ A +:+ ">().not.toMatchTypeOf<" +:+ B +:+ ">()")
    = "Ts.Assert.not.sub.ofAs<" +:+ B +:+ ">().onAs<" +:+ A +:+ ">()" ∧
  rewrite_all ("expectTypeOf(" +:+ A +:+ ").toEqualTypeOf<" +:+ B +:+ ">()")
    = "Ts.Assert.exact.ofAs<" +:+ B +:+ ">().on(" +:+ A +:+ ")" ∧
  rewrite_all ("expectTypeOf<" +:+ A +:+ ">().toEqualTypeOf<" +:+ B +:+ ">()")
    = "Ts.Assert.exact.ofAs<" +:+ B +:+ ">().onAs<" +:+ A +:+ ">()".
Proof.
  intros HA HAne HB HBne.
  split_and!; unfold rewrite_all; rewrite_form.
Qed.

Lemma all_patterns_rewrites_each_form_witness :
  (free "Array<string>" = true ∧ "Array<string>" ≠ "" ∧
   free "readonly string[]" = true ∧ "readonly string[]" ≠ "") ∧
  rewrite_all "expectTypeOf<Array<string>>().toMatchTypeOf<readonly string[]>()"
    = "Ts.Assert.sub.ofAs<readonly string[]>().onAs<Array<string>>()".
Proof.
  assert (free "Array<string>" = true) as HA by reflexivity.
  assert ("Array<string>" ≠ "") as HAne by discriminate.
  assert (free "readonly string[]" = true) as HB by reflexivity.
  assert ("readonly string[]" ≠ "") as HBne by discriminate.
  split; [exact (conj HA (conj HAne (conj HB HBne)))|].
  exact (proj1 (proj2 (proj2 (all_patterns_rewrites_each_form
                         "Array<string>" "readonly string[]" HA HAne HB HBne)))).
Defined.

(** X7: [fix-remaining.py] rewrites the two [toEqualTypeOf<...>] forms with
    free arguments as [fix-all-patterns.py] does, and returns the four
    other forms as they are. *)
Theorem remaining_rewrites_two_forms (A B : string) :
  free A = true → A ≠ "" → free B = true → B ≠ "" →
  rewrite_remaining ("expectTypeOf(" +:+ A +:+ ").toEqualTypeOf<" +:+ B +:+ ">()")
    = "Ts.Assert.exact.ofAs<" +:+ B +:+ ">().on(" +:+ A +:+ ")" ∧
  rewrite_remaining ("expectTypeOf<" +:+ A +:+ ">().toEqualTypeOf<" +:+ B +:+ ">()")
    = "Ts.Assert.exact.ofAs<" +:+ B +:+ ">().onAs<" +:+ A +:+ ">()" ∧
  rewrite_remaining ("expectTypeOf(" +:+ A +:+ ").toEqualTypeOf(" +:+ B +:+ ")")
    = "expectTypeOf(" +:+ A +:+ ").toEqualTypeOf(" +:+ B +:+ ")" ∧
  rewrite_remaining ("expectTypeOf(" +:+ A +:+ ").toMatchTypeOf<" +:+ B +:+ ">()")
    = "expectTypeOf(" +:+ A +:+ ").toMatchTypeOf<" +:+ B +:+ ">()" ∧
  rewrite_remaining ("expectTypeOf<" +:+ A +:+ ">().toMatchTypeOf<" +:+ B +:+ ">()")
    = "expectTypeOf<" +:+ A +:+ ">().toMatchTypeOf<" +:+ B +:+ ">()" ∧
  rewrite_remaining ("expectTypeOf<" +:+ A +:+ ">().not.toMatchTypeOf<" +:+ B +:+ ">()")
    = "expectTypeOf<" +:+ A +:+ ">().not.toMatchTypeOf<" +:+ B +:+ ">()".
Proof.
  intros HA HAne HB HBne.
  split_and!; unfold rewrite_remaining; rewrite_form.
Qed.

Lemma remaining_rewrites_two_forms_witness :
  (free "user" = true ∧ "user" ≠ "" ∧
   free "Map<string, number>" = true ∧ "Map<string, number>" ≠ "") ∧
  rewrite_remaining "expectTypeOf(user).toEqualTypeOf<Map<string, number>>()"
    = "Ts.Assert.exact.ofAs<Map<string, number>>().on(user)".
Proof.
  assert (free "user" = true) as HA by reflexivity.
  assert ("user" ≠ "") as HAne by discriminate.
  assert (free "Map<string, number>" = true) as HB by reflexivity.
  assert ("Map<string, number>" ≠ "") as HBne by discriminate.
  split; [exact (conj HA (conj HAne (conj HB HBne)))|].
  exact (proj1 (remaining_rewrites_two_forms
                  "user" "Map<string, number>" HA HAne HB HBne)).
Defined.



(** X9: both scripts leave the six [Ts.Assert] forms with free arguments as
    they are: running a script again over assertions of these forms that
    it, or the other script, has rewritten changes nothing. *)
Theorem rewritten_forms_stay (v : script) (A B : string) :
  free A = true → free B = true →
  let stays content := rewrite_of v content = content in
  stays ("Ts.Assert.exact.ofAs<typeof " +:+ B +:+ ">().on(" +:+ A +:+ ")") ∧
  stays ("Ts.Assert.sub.ofAs<" +:+ B +:+ ">().on(" +:+ A +:+ ")") ∧
  stays ("Ts.Assert.sub.ofAs<" +:+ B +:+ ">().onAs<" +:+ A +:+ ">()") ∧
  stays ("Ts.Assert.not.sub.ofAs<" +:+ B +:+ ">().onAs<" +:+ A +:+ ">()") ∧
  stays ("Ts.Assert.exact.ofAs<" +:+ B +:+ ">().on(" +:+ A +:+ ")") ∧
  stays ("Ts.Assert.exact.ofAs<" +:+ B +:+ ">().onAs<" +:+ A +:+ ">()").
Proof.
  intros HA HB. cbn zeta.
  destruct v; cbn [rewrite_of];
    split_and!; unfold rewrite_all, rewrite_remaining; rewrite_form.
Qed.

Lemma rewritten_forms_stay_witness :
  (free "Promise<void>" = true ∧ free "Awaited<T>" = true) ∧
  rewrite_of AllPatterns
    ("Ts.Assert.sub.ofAs<" +:+ "Awaited<T>" +:+ ">().onAs<" +:+ "Promise<void>" +:+ ">()")
  = "Ts.Assert.sub.ofAs<" +:+ "Awaited<T>" +:+ ">().onAs<" +:+ "Promise<void>" +:+ ">()".
Proof.
  assert (free "Promise<void>" = true) as HA by reflexivity.
  assert (free "Awaited<T>" = true) as HB by reflexivity.
  split; [exact (conj HA HB)|].
  pose proof (rewritten_forms_stay AllPatterns "Promise<void>" "Awaited<T>" HA HB)
    as H.
  cbn zeta in H. destruct H as (_ & _ & H & _). exact H.
Defined.

End Forms.

(** ** The [re.DOTALL] flag *)

Section DotAll.












End DotAll.
